(** * scripts/restore-test-file.py

    A shallow embedding of the restore script and the properties of its
    text pipeline.

    Python's [str] is a sequence of Unicode code points, so a text is a
    list of code points ([N]).  [str.replace] and [re.sub] both scan the
    text from left to right and rewrite the non-overlapping occurrences
    they meet; they share one scanning function here, [scan]. *)

From Stdlib Require Import NArith Lia Permutation.
From stdpp Require Import base list gmap strings.

Open Scope N_scope.

(** ** Texts *)

Definition char : Type := N.
Definition text : Type := list char.

(** An ASCII literal of the source, one code point per character. *)
Definition str (s : string) : text :=
  map Ascii.N_of_ascii (String.list_ascii_of_string s).

(** The characters the script names, by code point. *)
Definition space      : char := 32.
Definition dquote     : char := 34.      (* the ASCII double quote *)
Definition apostrophe : char := 39.      (* the ASCII single quote *)
Definition LF         : char := 10.      (* \n *)
Definition CR         : char := 13.      (* \r *)
Definition checkmark  : char := 0x2713.  (* line 14 *)
Definition cross      : char := 0x274C.  (* line 15 *)
Definition clipboard  : char := 0x1F4CB. (* line 18, for = *)
Definition magnifier  : char := 0x1F50D. (* line 19, for < *)
Definition broom      : char := 0x1F9F9. (* line 20, for > *)
Definition barchart   : char := 0x1F4CA. (* line 21, for 9 *)

(** The typographic quotation marks the comments of lines 24-27 name.
    They occur nowhere in the code of the script: the literals of those
    lines are written with ASCII quotes only. *)
Definition lsquo : char := 0x2018. (* LEFT SINGLE QUOTATION MARK *)
Definition rsquo : char := 0x2019. (* RIGHT SINGLE QUOTATION MARK *)
Definition ldquo : char := 0x201C. (* LEFT DOUBLE QUOTATION MARK *)
Definition rdquo : char := 0x201D. (* RIGHT DOUBLE QUOTATION MARK *)

(** ** The scanning functions of the Python library *)

(** [str.startswith] *)
Fixpoint startswith (p s : text) : bool :=
  match p, s with
  | [], _ => true
  | _ :: _, [] => false
  | a :: p', b :: s' => (a =? b) && startswith p' s'
  end.

(** Number of space characters a text begins with. *)
Fixpoint leading_spaces (s : text) : nat :=
  match s with
  | c :: s' => if c =? space then S (leading_spaces s') else O
  | [] => O
  end.

(** A matcher tells how many characters the pattern matches at the start
    of the text, if it matches there.  The patterns of the script never
    match the empty text. *)
Definition matcher : Type := text -> option nat.

(** A literal pattern, as [str.replace] searches it. *)
Definition literal (old : text) : matcher :=
  fun s => if startswith old s then Some (length old) else None.

(** The regular expression of line 34: two spaces, then one or more
    spaces, the [+] being greedy. This matches a whole run of spaces. *)
Definition spaces3 : matcher :=
  fun s => let n := leading_spaces s in
           if (3 <=? n)%nat then Some n else None.

(** The left-to-right scan: at a position where the pattern matches,
    write the replacement and jump over the match; elsewhere copy the
    character.  [skip] counts the characters of the current match that
    are still to be jumped over. *)
Fixpoint scan (m : matcher) (new : text) (skip : nat) (s : text) : text :=
  match s with
  | [] => []
  | c :: s' =>
      match skip with
      | S k => scan m new k s'
      | O =>
          match m s with
          | Some (S n) => new ++ scan m new n s'
          | _ => c :: scan m new O s'
          end
      end
  end.

(** [s.replace(old, new)].  With an empty [old] Python writes [new]
    before every character and at the end. *)
Definition replace (old new s : text) : text :=
  match old with
  | [] => new ++ flat_map (fun c => c :: new) s
  | _ :: _ => scan (literal old) new O s
  end.

(** [re.sub] with the pattern of line 34. *)
Definition re_sub_spaces3 (repl s : text) : text :=
  scan spaces3 repl O s.

(** ** The pipeline of the script, lines 14-34 *)

(** The first argument of the [replace] call that starts on line 24.
    The three apostrophes after the parenthesis open a triple-quoted
    literal, which runs up to the three apostrophes of line 25; the call
    ends on line 25 with the second argument, an apostrophe.  The
    literal begins with comma, space, double quote, apostrophe, double
    quote, closing parenthesis. *)
Definition line24_pattern : text :=
  [44; 32; dquote; apostrophe; dquote; 41]
  ++ str "  # LEFT SINGLE QUOTATION MARK"
  ++ [LF]
  ++ str "content = content.replace(".

(** Step 1, lines 14-15. *)
Definition restore_markers (content : text) : text :=
  let content := replace [checkmark] (str " ") content in
  let content := replace [cross] (str "X") content in
  content.

(** Step 2, lines 18-21. *)
Definition restore_operators (content : text) : text :=
  let content := replace [clipboard] (str "=") content in
  let content := replace [magnifier] (str "<") content in
  let content := replace [broom] (str ">") content in
  let content := replace [barchart] (str "9") content in
  content.

(** Step 3, lines 24-27: one call over lines 24-25, then two calls that
    replace the ASCII double quote by itself. *)
Definition normalize_quotes (content : text) : text :=
  let content := replace line24_pattern [apostrophe] content in
  let content := replace [dquote] [dquote] content in
  let content := replace [dquote] [dquote] content in
  content.

(** Step 4, lines 30-31. *)
Definition normalize_line_endings (content : text) : text :=
  let content := replace [CR; LF] [LF] content in
  let content := replace [CR] [LF] content in
  content.

(** Step 5, line 34. *)
Definition collapse_spaces (content : text) : text :=
  re_sub_spaces3 (str "  ") content.

(** Lines 14-34 in order. *)
Definition restore (content : text) : text :=
  let content := restore_markers content in
  let content := restore_operators content in
  let content := normalize_quotes content in
  let content := normalize_line_endings content in
  let content := collapse_spaces content in
  content.

(** ** The script as a whole, lines 10-40 *)

(** The part of the world the script touches: the files, by path, each
    a valid UTF-8 file given by its code points; the paths that cannot
    be opened for writing; the line separator of the platform
    ([os.linesep]); the characters that the encoding of the standard
    output can encode; and the lines printed so far. *)
Record world : Type := World {
  files : gmap string text;
  readonly : gset string;
  linesep : text;
  stdout_encodes : char -> bool;
  stdout : list text
}.

(** The exceptions [open] and [print] raise here. *)
Inductive exn : Type :=
  | FileNotFoundError
  | PermissionError
  | UnicodeEncodeError.

(** A statement either raises or returns, and leaves a world behind. *)
Definition io (A : Type) : Type := world -> (exn + A) * world.

#[global] Instance io_ret : MRet io :=
  fun A (x : A) w => (inr x, w).

#[global] Instance io_bind : MBind io :=
  fun A B (k : A -> io B) (m : io A) w =>
    match m w with
    | (inl e, w') => (inl e, w')
    | (inr x, w') => k x w'
    end.

(** Text mode with the default [newline=None]: on reading, carriage
    return plus linefeed and lone carriage returns come back as
    linefeeds; on writing, linefeeds go out as the line separator. *)
Definition newlines_in (raw : text) : text :=
  replace [CR] [LF] (replace [CR; LF] [LF] raw).

Definition newlines_out (sep content : text) : text :=
  replace [LF] sep content.

(** The [with open(path, 'r', encoding='utf-8')] block of lines 10-11,
    with its [f.read()]. *)
Definition read_file (path : string) : io text :=
  fun w =>
    match files w !! path with
    | Some raw => (inr (newlines_in raw), w)
    | None => (inl FileNotFoundError, w)
    end.

(** The [with open(path, 'w', encoding='utf-8')] block of lines 37-38,
    with its [f.write(content)]: the file is created or overwritten in
    full. *)
Definition write_file (path : string) (content : text) : io unit :=
  fun w =>
    if decide (path ∈ readonly w) then (inl PermissionError, w)
    else (inr (),
          World (<[path := newlines_out (linesep w) content]> (files w))
                (readonly w) (linesep w) (stdout_encodes w) (stdout w)).

(** [print(line)]: the line is encoded for the standard output as a
    whole, and nothing is written when one of its characters cannot be
    encoded. *)
Definition print (line : text) : io unit :=
  fun w =>
    if forallb (stdout_encodes w) line then
      (inr (),
       World (files w) (readonly w) (linesep w) (stdout_encodes w)
             (stdout w ++ [line]))
    else (inl UnicodeEncodeError, w).

Definition broken_path : string := "tests/e2e/stage-gather-scrape.test.ts.broken".
Definition restored_path : string := "tests/e2e/stage-gather-scrape.test.ts".

Definition main : io unit :=
  content ← read_file broken_path;
  let content := restore content in
  write_file restored_path content;;
  print (checkmark :: str " File restored successfully").

(** ** Vocabulary of the properties *)

(** [p] occurs in [s] as a contiguous piece. *)
Definition occurs (p s : text) : Prop :=
  ∃ a b, s = a ++ p ++ b.

(** The six marker characters of steps 1 and 2. *)
Definition markers : list char :=
  [checkmark; cross; clipboard; magnifier; broom; barchart].

(** The four typographic quotation marks. *)
Definition curly_quotes : list char :=
  [lsquo; rsquo; ldquo; rdquo].

(** The text of lines 24-25 between the triple apostrophes, with three
    checkmarks where the source has its two spaces. *)
Definition unstable_input : text :=
  [44; 32; dquote; apostrophe; dquote; 41]
  ++ [checkmark; checkmark; checkmark]
  ++ str "# LEFT SINGLE QUOTATION MARK"
  ++ [LF]
  ++ str "content = content.replace(".

(** A character no step of the pipeline looks at: it is no marker, it
    is not in the literal of lines 24-25, and it is neither a carriage
    return, a linefeed nor a space. *)
Definition inert (x : char) : bool :=
  negb (existsb (N.eqb x) (markers ++ line24_pattern ++ [CR; LF; space])).

(** Replacing one character by one character, seen on a single
    character. *)
Definition subst (a b c : char) : char :=
  if c =? a then b else c.

(** Steps 1 and 2 seen on a single character. *)
Definition restore_char (c : char) : char :=
  subst barchart 57 (subst broom 62 (subst magnifier 60
    (subst clipboard 61 (subst cross 88 (subst checkmark space c))))).

(** Step 2 as a table of pairs applied in order. *)
Definition operator_table : list (text * text) :=
  [ ([clipboard], str "=");
    ([magnifier], str "<");
    ([broom], str ">");
    ([barchart], str "9") ].

Definition apply_table (table : list (text * text)) (content : text) : text :=
  foldl (fun content rule => replace rule.1 rule.2 content) content table.

(** Two rules commute when their order does not matter on any text. *)
Definition rules_commute (r1 r2 : text * text) : Prop :=
  ∀ s, replace r1.1 r1.2 (replace r2.1 r2.2 s)
       = replace r2.1 r2.2 (replace r1.1 r1.2 s).

(** Line-ending normalization in the words of the specification: every
    carriage return followed by a linefeed becomes one linefeed, every
    other carriage return becomes a linefeed. *)
Fixpoint unix_line_endings (s : text) : text :=
  match s with
  | [] => []
  | c :: s' =>
      if c =? CR then
        LF :: match s' with
              | d :: s'' => if d =? LF then unix_line_endings s''
                            else unix_line_endings s'
              | [] => []
              end
      else c :: unix_line_endings s'
  end.

(** Whitespace collapse seen one character at a time: a space goes away
    exactly when at least two spaces follow it. *)
Fixpoint squeeze (s : text) : text :=
  match s with
  | [] => []
  | c :: s' =>
      if (c =? space) && (2 <=? leading_spaces s')%nat then squeeze s'
      else c :: squeeze s'
  end.

(** ** Vocabulary of the further properties *)

(** The characters the pipeline can write: the replacements of lines
    14-21, the apostrophe of line 25 and the linefeed of lines 30-31
    (the two spaces of line 34 and the double quote of lines 26-27 add
    nothing to these). *)
Definition written : list char :=
  [space; 88; 61; 60; 62; 57; apostrophe; LF].

(** Steps 1 and 2 together as a table of pairs applied in order. *)
Definition marker_table : list (text * text) :=
  [ ([checkmark], str " ");
    ([cross], str "X");
    ([clipboard], str "=");
    ([magnifier], str "<");
    ([broom], str ">");
    ([barchart], str "9") ].

(** The six rules of lines 14-21 on single characters, marker and
    replacement. *)
Definition char_rules : list (char * char) :=
  [ (checkmark, space); (cross, 88); (clipboard, 61);
    (magnifier, 60); (broom, 62); (barchart, 57) ].

(** Those of the six whose replacement no later step looks at. *)
Definition in_place_rules : list (char * char) :=
  [ (cross, 88); (magnifier, 60); (broom, 62); (barchart, 57) ].

(** A text on which step 3 is not idempotent: the literal of lines
    24-25 stands where the apostrophe of a second copy would be. *)
Definition nested_literal : text :=
  take 3 line24_pattern ++ line24_pattern ++ drop 4 line24_pattern.

(** Whether [p] occurs in [s], computed. *)
Fixpoint contains (p s : text) : bool :=
  match s with
  | [] => startswith p []
  | _ :: s' => startswith p s || contains p s'
  end.


(** * Properties *)

(** ** The scan *)

Section scan_facts.
Context (m : matcher) (new : text).

Lemma scan_skip (k : nat) (s : text) :
  scan m new k s = scan m new 0 (drop k s).
Proof.
  revert k. induction s as [|c s IH]; intros [|k]; simpl; auto.
Qed.

Lemma scan_hit (c : char) (s : text) (n : nat) :
  m (c :: s) = Some (S n) ->
  scan m new 0 (c :: s) = new ++ scan m new 0 (drop n s).
Proof.
  intros Hm. cbn [scan]. rewrite Hm, scan_skip. reflexivity.
Qed.

Lemma scan_miss (c : char) (s : text) :
  m (c :: s) = None ->
  scan m new 0 (c :: s) = c :: scan m new 0 s.
Proof.
  intros Hm. cbn [scan]. rewrite Hm. reflexivity.
Qed.

(** The scan writes nothing but characters of the text and of the
    replacement. *)
Lemma scan_elem_of (x : char) (k : nat) (s : text) :
  x ∈ scan m new k s -> x ∈ s ∨ x ∈ new.
Proof.
  revert k. induction s as [|c s IH]; intros k; cbn [scan].
  - intros H. left. exact H.
  - destruct k as [|k].
    + destruct (m (c :: s)) as [[|n]|].
      * rewrite elem_of_cons. intros [->|H].
        -- left. left.
        -- destruct (IH _ H); [left; right|right]; assumption.
      * rewrite elem_of_app. intros [H|H]; [right; assumption|].
        destruct (IH _ H); [left; right|right]; assumption.
      * rewrite elem_of_cons. intros [->|H].
        -- left. left.
        -- destruct (IH _ H); [left; right|right]; assumption.
    + intros H. destruct (IH _ H); [left; right|right]; assumption.
Qed.
(** A character that the matcher never reads through, [x], cuts the
    scan in two: no match begins at it or runs across it. *)
Lemma scan_split (x : char) (a b : text) :
  (∀ u v, m (u ++ x :: v) = m u) ->
  (∀ u n, m u = Some n -> (n <= length u)%nat) ->
  scan m new 0 (a ++ x :: b) = scan m new 0 a ++ x :: scan m new 0 b.
Proof.
  intros Hx Hlen.
  remember (length a) as k eqn:Hk.
  assert (Hle : (length a <= k)%nat) by lia. clear Hk.
  revert a Hle. induction k as [|k IH]; intros [|c a] Hle;
    simpl in Hle; try lia.
  - cbn [app]. destruct (m (x :: b)) as [[|n]|] eqn:E;
      try (cbn [scan]; rewrite E; reflexivity).
    pose proof (Hx [] b) as H0. cbn [app] in H0. rewrite E in H0.
    symmetry in H0. apply Hlen in H0. simpl in H0. lia.
  - cbn [app]. destruct (m (x :: b)) as [[|n]|] eqn:E;
      try (cbn [scan]; rewrite E; reflexivity).
    pose proof (Hx [] b) as H0. cbn [app] in H0. rewrite E in H0.
    symmetry in H0. apply Hlen in H0. simpl in H0. lia.
  - destruct (m (c :: a)) as [[|n]|] eqn:E.
    + pose proof (Hx (c :: a) b) as H0. cbn [app] in H0.
      cbn [app scan]. rewrite H0, E. cbn [app].
      rewrite IH by lia. reflexivity.
    + pose proof (Hlen _ _ E) as Hn. simpl in Hn.
      change ((c :: a) ++ x :: b) with (c :: (a ++ x :: b)).
      pose proof (Hx (c :: a) b) as H0. cbn [app] in H0.
      rewrite (scan_hit c (a ++ x :: b) n) by (rewrite H0; exact E).
      rewrite (scan_hit c a n E).
      rewrite drop_app_le by lia.
      rewrite IH by (rewrite length_drop; lia).
      rewrite <- app_assoc. reflexivity.
    + pose proof (Hx (c :: a) b) as H0. cbn [app] in H0.
      cbn [app scan]. rewrite H0, E. cbn [app].
      rewrite IH by lia. reflexivity.
Qed.
(** With a non-empty replacement the scan ends and begins like the
    text or like the replacement. *)
Lemma scan_nil_inv (s : text) :
  new ≠ [] -> scan m new 0 s = [] -> s = [].
Proof.
  intros Hnew. destruct s as [|c s]; [reflexivity|]. cbn [scan].
  destruct (m (c :: s)) as [[|n]|]; try discriminate.
  destruct new; [congruence|discriminate].
Qed.

Lemma scan_last (s : text) :
  new ≠ [] ->
  last (scan m new 0 s) = last s ∨ last (scan m new 0 s) = last new.
Proof.
  intros Hnew.
  remember (length s) as k eqn:Hk.
  assert (Hle : (length s <= k)%nat) by lia. clear Hk.
  revert s Hle. induction k as [|k IH]; intros [|c s] Hle;
    simpl in Hle; try lia; try (left; reflexivity).
  assert (Hcopy : last (c :: scan m new 0 s) = last (c :: s)
                  ∨ last (c :: scan m new 0 s) = last new).
  { destruct s as [|d s]; [left; reflexivity|].
    destruct (scan m new 0 (d :: s)) as [|e r] eqn:E.
    - apply scan_nil_inv in E; [discriminate|assumption].
    - rewrite !last_cons_cons, <- E. apply IH. simpl in Hle |- *. lia. }
  destruct (m (c :: s)) as [[|n]|] eqn:E.
  - cbn [scan]. rewrite E. exact Hcopy.
  - rewrite (scan_hit c s n E), last_app.
    destruct (drop n s) as [|d r] eqn:Ed.
    + right. reflexivity.
    + assert (Hs : last (c :: s) = last (d :: r)).
      { rewrite <- (take_drop n s), Ed.
        change (c :: take n s ++ d :: r) with ((c :: take n s) ++ d :: r).
        rewrite last_app_cons. reflexivity. }
      rewrite Hs.
      assert (Hlen : (length (d :: r) <= k)%nat).
      { rewrite <- Ed, length_drop. lia. }
      destruct (scan m new 0 (d :: r)) as [|e q] eqn:Eq.
      * apply scan_nil_inv in Eq; [discriminate|assumption].
      * rewrite <- Eq. destruct (IH (d :: r) Hlen) as [H|H]; rewrite H.
        -- left. destruct (last (d :: r)) eqn:El; [reflexivity|].
           apply last_None in El. discriminate.
        -- right. destruct (last new) eqn:El; [reflexivity|].
           apply last_None in El. contradiction.
  - cbn [scan]. rewrite E. exact Hcopy.
Qed.

Lemma scan_head (s : text) :
  new ≠ [] ->
  head (scan m new 0 s) = head s ∨ head (scan m new 0 s) = head new.
Proof.
  intros Hnew. destruct s as [|c s]; [left; reflexivity|]. cbn [scan].
  destruct (m (c :: s)) as [[|n]|]; try (left; reflexivity).
  right. destruct new; [congruence|reflexivity].
Qed.
End scan_facts.

(** ** [str.replace] *)

Lemma replace_elem_of (old new s : text) (x : char) :
  x ∈ replace old new s -> x ∈ s ∨ x ∈ new.
Proof.
  destruct old as [|a old]; unfold replace.
  - rewrite elem_of_app. intros [H|H]; [right; assumption|].
    induction s as [|c s IH]; simpl in H.
    + inversion H.
    + rewrite elem_of_cons, elem_of_app in H.
      destruct H as [->|[H|H]].
      * left. left.
      * right. assumption.
      * destruct (IH H); [left; right|right]; assumption.
  - apply scan_elem_of.
Qed.

(** A one-character pattern with a one-character replacement acts on
    every character by itself. *)
Lemma replace_char (a b : char) (s : text) :
  replace [a] [b] s = map (subst a b) s.
Proof.
  unfold replace. induction s as [|c s IH]; [reflexivity|].
  cbn [scan map]. unfold literal at 1, subst at 1.
  cbn [startswith length]. rewrite andb_true_r, (N.eqb_sym c a).
  destruct (a =? c); cbn [app]; rewrite IH; reflexivity.
Qed.

Lemma subst_absent (a b : char) (s : text) :
  a ∉ s -> map (subst a b) s = s.
Proof.
  induction s as [|c s IH]; [reflexivity|].
  rewrite not_elem_of_cons. intros [Hc Hs]. simpl. rewrite IH by assumption.
  unfold subst. destruct (N.eqb_spec c a); congruence.
Qed.

Lemma subst_gone (a b : char) (s : text) :
  a ≠ b -> a ∉ map (subst a b) s.
Proof.
  intros Hab. induction s as [|c s IH]; simpl.
  - apply not_elem_of_nil.
  - rewrite not_elem_of_cons. split; [|assumption].
    unfold subst. destruct (N.eqb_spec c a); congruence.
Qed.

Lemma subst_elem_of (a b x : char) (s : text) :
  x ∈ map (subst a b) s -> x ∈ s ∨ x = b.
Proof.
  intros H. rewrite <- replace_char in H.
  apply replace_elem_of in H. destruct H as [H|H]; [left; assumption|].
  right. apply list_elem_of_singleton in H. assumption.
Qed.

Lemma subst_keeps_absent (a b x : char) (s : text) :
  x ∉ s -> x ≠ b -> x ∉ map (subst a b) s.
Proof.
  intros Hs Hb H. apply subst_elem_of in H. destruct H; contradiction.
Qed.

Lemma subst_comm (a b a' b' c : char) :
  a ≠ a' -> b ≠ a' -> b' ≠ a ->
  subst a b (subst a' b' c) = subst a' b' (subst a b c).
Proof.
  intros Haa Hb Hb'. unfold subst.
  destruct (N.eqb_spec c a'), (N.eqb_spec c a);
    repeat match goal with
           | |- context [?x =? ?y] => destruct (N.eqb_spec x y)
           end; congruence.
Qed.

(** ** Steps 1 and 2 character by character *)

Lemma restore_markers_map (s : text) :
  restore_markers s = map (subst cross 88) (map (subst checkmark space) s).
Proof.
  unfold restore_markers.
  change (str " ") with [space]. change (str "X") with [88].
  rewrite !replace_char. reflexivity.
Qed.

Lemma restore_operators_map (s : text) :
  restore_operators s =
  map (subst barchart 57) (map (subst broom 62)
    (map (subst magnifier 60) (map (subst clipboard 61) s))).
Proof.
  unfold restore_operators.
  change (str "=") with [61]. change (str "<") with [60].
  change (str ">") with [62]. change (str "9") with [57].
  rewrite !replace_char. reflexivity.
Qed.

Lemma markers_gone (s : text) (x : char) :
  x ∈ markers -> x ∉ restore_operators (restore_markers s).
Proof.
  intros Hx. rewrite restore_operators_map, restore_markers_map.
  unfold markers in Hx. rewrite !elem_of_cons in Hx.
  destruct Hx as [->|[->|[->|[->|[->|[->|Hx]]]]]]; [..|inversion Hx];
    repeat first
      [ apply subst_gone; discriminate
      | apply subst_keeps_absent; [|discriminate] ].
Qed.

(** ** What steps 3 to 5 can write *)

Lemma normalize_quotes_elem_of (x : char) (s : text) :
  x ∈ normalize_quotes s -> x ∈ s ∨ x ∈ [apostrophe; dquote].
Proof.
  unfold normalize_quotes. intros H.
  repeat (apply replace_elem_of in H; destruct H as [H|H]);
    [left; assumption|..];
    apply list_elem_of_singleton in H; subst x; right;
    rewrite !elem_of_cons; auto.
Qed.

Lemma normalize_line_endings_elem_of (x : char) (s : text) :
  x ∈ normalize_line_endings s -> x ∈ s ∨ x = LF.
Proof.
  unfold normalize_line_endings. intros H.
  repeat (apply replace_elem_of in H; destruct H as [H|H]);
    [left; assumption|..];
    apply list_elem_of_singleton in H; right; assumption.
Qed.

Lemma normalize_line_endings_no_CR (s : text) :
  CR ∉ normalize_line_endings s.
Proof.
  unfold normalize_line_endings. rewrite replace_char.
  apply subst_gone. discriminate.
Qed.

Lemma collapse_spaces_elem_of (x : char) (s : text) :
  x ∈ collapse_spaces s -> x ∈ s ∨ x = space.
Proof.
  unfold collapse_spaces, re_sub_spaces3. intros H.
  apply scan_elem_of in H. destruct H as [H|H]; [left; assumption|].
  right. change (str "  ") with [space; space] in H.
  rewrite !elem_of_cons in H. destruct H as [H|[H|H]]; auto. inversion H.
Qed.

Lemma restore_no_marker (s : text) (x : char) :
  x ∈ markers -> x ∉ restore s.
Proof.
  intros Hx H. unfold restore in H.
  apply collapse_spaces_elem_of in H.
  destruct H as [H | ->]; [|revert Hx; apply (bool_decide_unpack _); vm_compute; reflexivity].
  apply normalize_line_endings_elem_of in H.
  destruct H as [H | ->]; [|revert Hx; apply (bool_decide_unpack _); vm_compute; reflexivity].
  apply normalize_quotes_elem_of in H.
  destruct H as [H|H].
  - revert H. apply markers_gone. assumption.
  - rewrite !elem_of_cons in H.
    destruct H as [-> | [-> | H]]; [..|inversion H];
      revert Hx; apply (bool_decide_unpack _); vm_compute; reflexivity.
Qed.

Lemma restore_no_CR (s : text) : CR ∉ restore s.
Proof.
  intros H. unfold restore in H.
  apply collapse_spaces_elem_of in H. destruct H as [H|H]; [|discriminate].
  revert H. apply normalize_line_endings_no_CR.
Qed.

(** ** Order of the operator rules *)

Lemma replace_char_comm (a b a' b' : char) :
  a ≠ a' -> b ≠ a' -> b' ≠ a ->
  rules_commute ([a], [b]) ([a'], [b']).
Proof.
  intros Haa Hb Hb' s. cbn [fst snd]. rewrite !replace_char, !map_map.
  apply map_ext. intros c. apply subst_comm; assumption.
Qed.

Lemma apply_table_perm (t1 t2 : list (text * text)) :
  t1 ≡ₚ t2 ->
  (∀ r1 r2, r1 ∈ t1 -> r2 ∈ t1 -> rules_commute r1 r2) ->
  ∀ s, apply_table t1 s = apply_table t2 s.
Proof.
  induction 1 as [|r t1 t2 Hp IH|r1 r2 t|t1 t2 t3 Hp1 IH1 Hp2 IH2];
    intros Hc s.
  - reflexivity.
  - unfold apply_table. cbn [foldl]. apply IH.
    intros q1 q2 H1 H2. apply Hc; right; assumption.
  - unfold apply_table. cbn [foldl]. f_equal.
    apply (Hc r1 r2); rewrite !elem_of_cons; auto.
  - rewrite IH1 by assumption. apply IH2.
    intros q1 q2 H1 H2. apply Hc; rewrite Hp1; assumption.
Qed.

Lemma operator_rules_commute (r1 r2 : text * text) :
  r1 ∈ operator_table -> r2 ∈ operator_table -> rules_commute r1 r2.
Proof.
  unfold operator_table. rewrite !elem_of_cons.
  intros [->|[->|[->|[->|H1]]]] [->|[->|[->|[->|H2]]]];
    try (inversion H1; fail); try (inversion H2; fail);
    first [ intros s; reflexivity
          | apply replace_char_comm; discriminate ].
Qed.

(** C7: the four operator rules commute: applied in any order, that is
    as any permutation of the table of lines 18-21, they give the result
    of step 2. *)
Theorem operator_rules_any_order (table : list (text * text)) :
  operator_table ≡ₚ table ->
  ∀ s, apply_table table s = restore_operators s.
Proof.
  intros Hp s. symmetry.
  change (restore_operators s) with (apply_table operator_table s).
  apply apply_table_perm; [assumption|apply operator_rules_commute].
Qed.

Lemma operator_rules_any_order_witness :
  let table := [ ([barchart], str "9"); ([broom], str ">");
                 ([clipboard], str "="); ([magnifier], str "<") ] in
  let s := [magnifier; barchart; 61; clipboard; broom; checkmark] in
  operator_table ≡ₚ table ∧ apply_table table s = restore_operators s.
Proof.
  assert (Hp : operator_table ≡ₚ
               [ ([barchart], str "9"); ([broom], str ">");
                 ([clipboard], str "="); ([magnifier], str "<") ])
    by (apply (bool_decide_unpack _); vm_compute; reflexivity).
  split; [exact Hp|].
  apply (operator_rules_any_order _ Hp).
Defined.

(** ** Step 4: line endings *)

Lemma normalize_line_endings_unix (s : text) :
  normalize_line_endings s = unix_line_endings s.
Proof.
  unfold normalize_line_endings. rewrite replace_char. unfold replace.
  remember (length s) as n eqn:Hn.
  assert (Hle : (length s <= n)%nat) by lia. clear Hn.
  revert s Hle. induction n as [|n IH]; intros [|c s] Hle;
    try reflexivity; simpl in Hle; [lia|].
  cbn [scan unix_line_endings]. unfold literal at 1.
  cbn [startswith length]. rewrite (N.eqb_sym CR c).
  destruct (N.eqb_spec c CR) as [->|Hc]; cbn [andb].
  - destruct s as [|d s]; [reflexivity|].
    cbn [startswith]. rewrite andb_true_r, (N.eqb_sym LF d).
    destruct (N.eqb_spec d LF) as [->|Hd].
    + cbn [app map scan]. rewrite IH by (simpl in Hle; lia). reflexivity.
    + cbn [map]. rewrite IH by (simpl in Hle |- *; lia). reflexivity.
  - cbn [map]. rewrite IH by lia. unfold subst.
    destruct (N.eqb_spec c CR); [contradiction|reflexivity].
Qed.

(** C6: step 4 turns every carriage return followed by a linefeed into
    one linefeed and every other carriage return into a linefeed, so
    that no carriage return is left, after step 4 and at the end of the
    pipeline; line1, CR, LF, line2, CR, line3 becomes line1, LF, line2,
    LF, line3. *)
Theorem line_endings_normalized :
  (∀ s, normalize_line_endings s = unix_line_endings s)
  ∧ (∀ s, CR ∉ normalize_line_endings s)
  ∧ (∀ s, CR ∉ restore s)
  ∧ (let input := str "line1" ++ [CR; LF] ++ str "line2" ++ [CR] ++ str "line3" in
     let output := str "line1" ++ [LF] ++ str "line2" ++ [LF] ++ str "line3" in
     normalize_line_endings input = output ∧ restore input = output).
Proof.
  split; [exact normalize_line_endings_unix|].
  split; [exact normalize_line_endings_no_CR|].
  split; [exact restore_no_CR|].
  vm_compute. split; reflexivity.
Qed.

(** ** Step 5: runs of spaces *)

Lemma leading_spaces_replicate (n : nat) (b : text) :
  head b ≠ Some space ->
  leading_spaces (replicate n space ++ b) = n.
Proof.
  intros Hb. induction n as [|n IH]; simpl.
  - destruct b as [|c b]; [reflexivity|]. simpl.
    destruct (N.eqb_spec c space) as [->|]; [|reflexivity].
    exfalso. apply Hb. reflexivity.
  - rewrite IH. reflexivity.
Qed.

Lemma leading_spaces_app (a r : text) :
  (leading_spaces a < length a)%nat ->
  leading_spaces (a ++ r) = leading_spaces a.
Proof.
  induction a as [|c a IH]; simpl; [lia|].
  destruct (c =? space); [|reflexivity].
  intros H. rewrite IH by lia. reflexivity.
Qed.

Lemma leading_spaces_le (a : text) :
  (leading_spaces a <= length a)%nat.
Proof.
  induction a as [|c a IH]; simpl; [lia|].
  destruct (c =? space); lia.
Qed.

Lemma leading_spaces_last (a : text) :
  a ≠ [] -> last a ≠ Some space ->
  (leading_spaces a < length a)%nat.
Proof.
  induction a as [|c a IH]; [congruence|]. intros _ Hl.
  destruct a as [|d a].
  - simpl. destruct (N.eqb_spec c space) as [->|]; [|lia].
    exfalso. apply Hl. reflexivity.
  - change (last (c :: d :: a)) with (last (d :: a)) in Hl.
    specialize (IH ltac:(discriminate) Hl).
    change (leading_spaces (c :: d :: a))
      with (if c =? space then S (leading_spaces (d :: a)) else O).
    change (length (c :: d :: a)) with (S (length (d :: a))).
    destruct (c =? space); lia.
Qed.

Lemma squeeze_run (s : text) :
  (2 <= leading_spaces s)%nat ->
  squeeze s = space :: space :: squeeze (drop (leading_spaces s) s).
Proof.
  induction s as [|c s IH]; cbn [leading_spaces squeeze]; [lia|].
  destruct (N.eqb_spec c space) as [->|Hc]; [|lia]. intros Hk.
  cbn [andb drop]. destruct (Nat.leb_spec 2 (leading_spaces s)) as [H2|H2].
  - apply IH. assumption.
  - destruct s as [|d s]; [simpl in Hk; lia|].
    cbn [leading_spaces] in *.
    destruct (N.eqb_spec d space) as [->|Hd]; [|lia].
    assert (H0 : leading_spaces s = O) by lia. rewrite H0.
    cbn [squeeze drop]. rewrite H0. reflexivity.
Qed.

Lemma collapse_spaces_squeeze (s : text) :
  collapse_spaces s = squeeze s.
Proof.
  unfold collapse_spaces, re_sub_spaces3. change (str "  ") with [space; space].
  remember (length s) as n eqn:Hn.
  assert (Hle : (length s <= n)%nat) by lia. clear Hn.
  revert s Hle. induction n as [|n IH]; intros [|c s] Hle;
    try reflexivity; simpl in Hle; [lia|].
  destruct (spaces3 (c :: s)) as [k|] eqn:Hm.
  - unfold spaces3 in Hm. cbn [leading_spaces] in Hm.
    destruct (N.eqb_spec c space) as [->|Hc]; [|discriminate].
    destruct (Nat.leb_spec 3 (S (leading_spaces s))) as [H3|H3];
      [|discriminate].
    injection Hm as <-.
    rewrite (scan_hit _ _ _ _ (leading_spaces s))
      by (unfold spaces3; cbn [leading_spaces]; rewrite N.eqb_refl;
          destruct (Nat.leb_spec 3 (S (leading_spaces s))); [reflexivity|lia]).
    cbn [squeeze]. rewrite N.eqb_refl.
    destruct (Nat.leb_spec 2 (leading_spaces s)); [|lia]. cbn [andb].
    rewrite squeeze_run by assumption. cbn [app]. do 2 f_equal.
    apply IH. rewrite length_drop. lia.
  - rewrite scan_miss by assumption. cbn [squeeze].
    unfold spaces3 in Hm. cbn [leading_spaces] in Hm.
    destruct (N.eqb_spec c space) as [->|Hc].
    + destruct (Nat.leb_spec 3 (S (leading_spaces s))) as [H3|H3];
        [discriminate|].
      destruct (Nat.leb_spec 2 (leading_spaces s)); [lia|]. cbn [andb].
      f_equal. apply IH. lia.
    + cbn [andb]. f_equal. apply IH. lia.
Qed.

Lemma squeeze_leading (s : text) :
  leading_spaces (squeeze s) = Nat.min 2 (leading_spaces s).
Proof.
  induction s as [|c s IH]; [reflexivity|]. cbn [squeeze leading_spaces].
  destruct (N.eqb_spec c space) as [->|Hc]; cbn [andb].
  - destruct (Nat.leb_spec 2 (leading_spaces s)).
    + rewrite IH. lia.
    + cbn [leading_spaces]. rewrite N.eqb_refl, IH. lia.
  - cbn [leading_spaces]. destruct (N.eqb_spec c space); [contradiction|lia].
Qed.

Lemma squeeze_no_run (s a b : text) :
  squeeze s ≠ a ++ [space; space; space] ++ b.
Proof.
  revert a. induction s as [|c s IH]; intros a; cbn [squeeze].
  - destruct a; discriminate.
  - destruct ((c =? space) && (2 <=? leading_spaces s)%nat) eqn:Hdrop;
      [apply IH|].
    destruct a as [|x a]; cbn [app]; intros H.
    + injection H as -> Hs.
      pose proof (squeeze_leading s) as Hl. rewrite Hs in Hl.
      cbn [leading_spaces] in Hl. rewrite !N.eqb_refl in Hl.
      rewrite N.eqb_refl in Hdrop. cbn [andb] in Hdrop.
      destruct (Nat.leb_spec 2 (leading_spaces s)); [discriminate|lia].
    + injection H as _ Hs. exact (IH _ Hs).
Qed.

Lemma squeeze_replicate (n : nat) (b : text) :
  head b ≠ Some space ->
  squeeze (replicate n space ++ b)
  = replicate (if (3 <=? n)%nat then 2 else n)%nat space ++ squeeze b.
Proof.
  intros Hb. induction n as [|n IH]; [reflexivity|].
  cbn [replicate app squeeze]. rewrite N.eqb_refl, leading_spaces_replicate by assumption.
  cbn [andb]. rewrite IH.
  destruct (Nat.leb_spec 2 n), (Nat.leb_spec 3 n), (Nat.leb_spec 3 (S n));
    try lia; try reflexivity.
  assert (n = 2%nat) as -> by lia. reflexivity.
Qed.

Lemma squeeze_app_run (a b : text) (n : nat) :
  last a ≠ Some space -> head b ≠ Some space ->
  squeeze (a ++ replicate n space ++ b)
  = squeeze a ++ replicate (if (3 <=? n)%nat then 2 else n)%nat space
    ++ squeeze b.
Proof.
  intros Ha Hb. induction a as [|c a IH].
  - apply squeeze_replicate. assumption.
  - cbn [app squeeze].
    assert (Hcond : (c =? space) && (2 <=? leading_spaces (a ++ replicate n space ++ b))%nat
                    = (c =? space) && (2 <=? leading_spaces a)%nat).
    { destruct a as [|d a].
      - destruct (N.eqb_spec c space) as [->|]; [|reflexivity].
        exfalso. apply Ha. reflexivity.
      - rewrite leading_spaces_app; [reflexivity|].
        apply leading_spaces_last; [discriminate|exact Ha]. }
    rewrite Hcond.
    assert (Ha' : last a ≠ Some space).
    { destruct a as [|d a]; [discriminate|exact Ha]. }
    destruct ((c =? space) && (2 <=? leading_spaces a)%nat);
      cbn [app]; rewrite IH by assumption; reflexivity.
Qed.

(** X18: in step 5 taken alone a maximal run of spaces, that is a run
    with no space right before it and none right after it, becomes two
    spaces when it has three or more and stays as it is when it has one
    or two; the texts before and after the run are collapsed on their
    own. *)
Theorem collapse_spaces_run (a b : text) (n : nat) :
  last a ≠ Some space -> head b ≠ Some space ->
  collapse_spaces (a ++ replicate n space ++ b)
  = collapse_spaces a
    ++ replicate (if (3 <=? n)%nat then 2 else n)%nat space
    ++ collapse_spaces b.
Proof.
  intros Ha Hb. rewrite !collapse_spaces_squeeze.
  apply squeeze_app_run; assumption.
Qed.

Lemma collapse_spaces_run_witness :
  last (str "x") ≠ Some space ∧ head (str "y") ≠ Some space
  ∧ collapse_spaces (str "x" ++ replicate 2 space ++ str "y")
    = collapse_spaces (str "x") ++ replicate 2 space
      ++ collapse_spaces (str "y").
Proof.
  assert (Ha : last (str "x") ≠ Some space) by (vm_compute; discriminate).
  assert (Hb : head (str "y") ≠ Some space) by (vm_compute; discriminate).
  split; [exact Ha|]. split; [exact Hb|].
  exact (collapse_spaces_run (str "x") (str "y") 2 Ha Hb).
Defined.

(** C10: the output of the pipeline, which is the output of the
    collapse of line 34, has no three spaces in a row. *)
Theorem restore_no_three_spaces (s : text) :
  ¬ occurs [space; space; space] (restore s).
Proof.
  intros (a & b & H). unfold restore in H.
  rewrite collapse_spaces_squeeze in H.
  exact (squeeze_no_run _ _ _ H).
Qed.

(** ** Texts the first three steps leave alone *)

Lemma startswith_app (p s : text) :
  startswith p s = true -> ∃ b, s = p ++ b.
Proof.
  revert s. induction p as [|a p IH]; intros s H.
  - exists s. reflexivity.
  - destruct s as [|c s]; [discriminate|]. cbn [startswith] in H.
    apply andb_true_iff in H. destruct H as [Hac Hp].
    apply N.eqb_eq in Hac. subst c.
    destruct (IH _ Hp) as [b ->]. exists b. reflexivity.
Qed.

Lemma occurs_cons (p s : text) (c : char) :
  occurs p s -> occurs p (c :: s).
Proof.
  intros (a & b & ->). exists (c :: a), b. reflexivity.
Qed.

Lemma replace_absent (old new s : text) :
  old ≠ [] -> ¬ occurs old s -> replace old new s = s.
Proof.
  intros Hold. destruct old as [|a old]; [congruence|]. unfold replace.
  induction s as [|c s IH]; intros Hs; [reflexivity|].
  rewrite scan_miss.
  - rewrite IH; [reflexivity|].
    intros H. apply Hs, occurs_cons, H.
  - unfold literal. destruct (startswith (a :: old) (c :: s)) eqn:E;
      [|reflexivity].
    exfalso. apply Hs. destruct (startswith_app _ _ E) as [b ->].
    exists [], b. reflexivity.
Qed.

Lemma replace_same_char (a : char) (s : text) :
  replace [a] [a] s = s.
Proof.
  rewrite replace_char. induction s as [|c s IH]; [reflexivity|].
  simpl. rewrite IH. unfold subst.
  destruct (N.eqb_spec c a); congruence.
Qed.

(** Steps 1 to 3 change nothing in a text that has no marker and does
    not contain the literal of lines 24-25. *)
Lemma restore_markerless (s : text) :
  Forall (fun c => c ∉ s) markers ->
  ¬ occurs line24_pattern s ->
  restore s = collapse_spaces (normalize_line_endings s).
Proof.
  intros Hm Hp. unfold restore.
  assert (H1 : restore_markers s = s).
  { rewrite restore_markers_map.
    rewrite (subst_absent checkmark), (subst_absent cross); try reflexivity;
      eapply (proj1 (Forall_forall _ _) Hm);
      unfold markers; rewrite !elem_of_cons; auto 10. }
  assert (H2 : restore_operators s = s).
  { rewrite restore_operators_map.
    rewrite (subst_absent clipboard), (subst_absent magnifier),
      (subst_absent broom), (subst_absent barchart); try reflexivity;
      eapply (proj1 (Forall_forall _ _) Hm);
      unfold markers; rewrite !elem_of_cons; auto 10. }
  assert (H3 : normalize_quotes s = s).
  { unfold normalize_quotes.
    rewrite (replace_absent line24_pattern) by (assumption || discriminate).
    rewrite !replace_same_char. reflexivity. }
  rewrite H1, H2, H3. reflexivity.
Qed.

(** ** Characters no step looks at *)

Lemma startswith_length (old u : text) :
  startswith old u = true -> (length old <= length u)%nat.
Proof.
  revert u. induction old as [|a old IH]; intros [|c u] H; simpl in *;
    try lia; try discriminate.
  apply andb_true_iff in H. destruct H as [_ H]. apply IH in H. lia.
Qed.

Lemma startswith_cut (old u v : text) (x : char) :
  x ∉ old -> old ≠ [] ->
  startswith old (u ++ x :: v) = startswith old u.
Proof.
  revert u. induction old as [|a old IH]; intros u Hx Hold; [congruence|].
  apply not_elem_of_cons in Hx. destruct Hx as [Hxa Hx].
  destruct u as [|c u]; cbn [app startswith].
  - destruct (N.eqb_spec a x); [congruence|reflexivity].
  - destruct old as [|a' old].
    + destruct (a =? c); reflexivity.
    + rewrite IH by (assumption || discriminate). reflexivity.
Qed.

Lemma replace_split (old new a b : text) (x : char) :
  x ∉ old -> old ≠ [] ->
  replace old new (a ++ x :: b)
  = replace old new a ++ x :: replace old new b.
Proof.
  intros Hx Hold. destruct old as [|o old]; [congruence|]. unfold replace.
  apply scan_split.
  - intros u v. unfold literal. rewrite startswith_cut by assumption.
    reflexivity.
  - intros u n. unfold literal.
    destruct (startswith (o :: old) u) eqn:E; [|discriminate].
    intros [= <-]. apply (startswith_length (o :: old)). exact E.
Qed.

Lemma leading_spaces_cut (u v : text) (x : char) :
  x ≠ space -> leading_spaces (u ++ x :: v) = leading_spaces u.
Proof.
  intros Hx. induction u as [|c u IH]; cbn [app leading_spaces].
  - destruct (N.eqb_spec x space); [contradiction|reflexivity].
  - rewrite IH. reflexivity.
Qed.

Lemma collapse_spaces_split (a b : text) (x : char) :
  x ≠ space ->
  collapse_spaces (a ++ x :: b)
  = collapse_spaces a ++ x :: collapse_spaces b.
Proof.
  intros Hx. unfold collapse_spaces, re_sub_spaces3. apply scan_split.
  - intros u v. unfold spaces3. rewrite leading_spaces_cut by assumption.
    reflexivity.
  - intros u n. unfold spaces3.
    destruct (3 <=? leading_spaces u)%nat; [|discriminate].
    intros [= <-]. apply leading_spaces_le.
Qed.

Lemma subst_split (p r x : char) (a b : text) :
  x ≠ p ->
  map (subst p r) (a ++ x :: b)
  = map (subst p r) a ++ x :: map (subst p r) b.
Proof.
  intros Hx. rewrite map_app. cbn [map]. unfold subst at 2.
  destruct (N.eqb_spec x p); [contradiction|reflexivity].
Qed.

Lemma inert_spec (x : char) :
  inert x = true ->
  (x ∉ markers) ∧ (x ∉ line24_pattern) ∧ x ≠ CR ∧ x ≠ LF ∧ x ≠ space.
Proof.
  unfold inert. rewrite negb_true_iff. intros H.
  assert (Hn : ∀ y, y ∈ markers ++ line24_pattern ++ [CR; LF; space] -> x ≠ y).
  { intros y Hy ->. apply not_true_iff_false in H. apply H.
    apply existsb_exists. exists y. split.
    - apply list_elem_of_In. exact Hy.
    - apply N.eqb_refl. }
  repeat split.
  - intros Hx. apply (Hn x); [|reflexivity]. rewrite elem_of_app. auto.
  - intros Hx. apply (Hn x); [|reflexivity]. rewrite !elem_of_app. auto.
  - apply Hn. rewrite !elem_of_app, !elem_of_cons. auto 10.
  - apply Hn. rewrite !elem_of_app, !elem_of_cons. auto 10.
  - apply Hn. rewrite !elem_of_app, !elem_of_cons. auto 10.
Qed.

(** The pipeline works on the two sides of an inert character
    separately and copies the character. *)
Lemma restore_split (a b : text) (x : char) :
  inert x = true ->
  restore (a ++ x :: b) = restore a ++ x :: restore b.
Proof.
  intros Hx. apply inert_spec in Hx.
  destruct Hx as (Hm & Hp & HCR & HLF & Hsp).
  assert (Hne : ∀ y, y ∈ markers -> x ≠ y) by (intros y Hy ->; contradiction).
  unfold markers in Hne.
  unfold restore. rewrite !restore_markers_map, !restore_operators_map.
  rewrite !subst_split by (apply Hne; rewrite !elem_of_cons; auto 10).
  unfold normalize_quotes. rewrite !replace_same_char.
  rewrite replace_split by (assumption || discriminate).
  unfold normalize_line_endings.
  rewrite replace_split;
    [|rewrite !not_elem_of_cons; auto using not_elem_of_nil|discriminate].
  rewrite !replace_char, subst_split by assumption.
  apply collapse_spaces_split. assumption.
Qed.

(** ** A run of two spaces through the whole pipeline *)

Lemma restore_char_map (s : text) :
  restore_operators (restore_markers s) = map restore_char s.
Proof.
  rewrite restore_operators_map, restore_markers_map, !map_map.
  reflexivity.
Qed.

Lemma restore_char_space (c : char) :
  c ≠ space -> c ≠ checkmark -> restore_char c ≠ space.
Proof.
  intros Hs Hc. unfold restore_char.
  unfold subst at 6. destruct (N.eqb_spec c checkmark); [contradiction|].
  unfold subst at 5. destruct (N.eqb_spec c cross); [vm_compute; discriminate|].
  unfold subst at 4. destruct (N.eqb_spec c clipboard); [vm_compute; discriminate|].
  unfold subst at 3. destruct (N.eqb_spec c magnifier); [vm_compute; discriminate|].
  unfold subst at 2. destruct (N.eqb_spec c broom); [vm_compute; discriminate|].
  unfold subst. destruct (N.eqb_spec c barchart); [discriminate|assumption].
Qed.

Lemma last_map (g : char -> char) (s : text) :
  last (map g s) = option_map g (last s).
Proof.
  induction s as [|c s IH]; [reflexivity|].
  destruct s as [|d s]; [reflexivity|].
  cbn [map] in *. rewrite !last_cons_cons. exact IH.
Qed.

Lemma normalize_quotes_absent (s : text) :
  ¬ occurs line24_pattern s -> normalize_quotes s = s.
Proof.
  intros H. unfold normalize_quotes.
  rewrite (replace_absent line24_pattern) by (assumption || discriminate).
  rewrite !replace_same_char. reflexivity.
Qed.

Lemma normalize_line_endings_split (a b : text) (x : char) :
  x ≠ CR -> x ≠ LF ->
  normalize_line_endings (a ++ x :: b)
  = normalize_line_endings a ++ x :: normalize_line_endings b.
Proof.
  intros HCR HLF. unfold normalize_line_endings.
  rewrite replace_split;
    [|rewrite !not_elem_of_cons; auto using not_elem_of_nil|discriminate].
  rewrite !replace_char, subst_split by assumption. reflexivity.
Qed.

Lemma normalize_line_endings_last (s : text) :
  last s ≠ Some space -> last (normalize_line_endings s) ≠ Some space.
Proof.
  intros Hs. unfold normalize_line_endings.
  rewrite replace_char, last_map. unfold replace.
  destruct (scan_last (literal [CR; LF]) [LF] s ltac:(discriminate)) as [H|H];
    rewrite H.
  - destruct (last s) as [z|]; [|discriminate]. cbn [option_map].
    unfold subst. destruct (N.eqb_spec z CR); [discriminate|exact Hs].
  - discriminate.
Qed.

Lemma normalize_line_endings_head (s : text) :
  head s ≠ Some space -> head (normalize_line_endings s) ≠ Some space.
Proof.
  intros Hs. rewrite normalize_line_endings_unix.
  destruct s as [|c s]; [discriminate|]. cbn [unix_line_endings].
  destruct (N.eqb_spec c CR); [discriminate|exact Hs].
Qed.

(** X8: through the whole pipeline a run of exactly two spaces, with no
    space and no checkmark next to it, stays two spaces and the texts on
    its two sides are restored on their own, as long as steps 1 and 2
    do not complete the literal of lines 24-25. *)
Lemma restore_two_spaces (a b : text) :
  last a ≠ Some space -> last a ≠ Some checkmark ->
  head b ≠ Some space -> head b ≠ Some checkmark ->
  ¬ occurs line24_pattern
      (restore_operators (restore_markers (a ++ [space; space] ++ b))) ->
  restore (a ++ [space; space] ++ b)
  = restore a ++ [space; space] ++ restore b.
Proof.
  intros Ha Ha' Hb Hb' Hp. unfold restore.
  rewrite !restore_char_map in *. rewrite !map_app in *.
  change (map restore_char [space; space]) with [space; space] in *.
  rewrite (normalize_quotes_absent _ Hp).
  rewrite (normalize_quotes_absent (map restore_char a))
    by (intros (u & v & E); apply Hp; rewrite E;
        exists u, (v ++ [space; space] ++ map restore_char b);
        rewrite <- !app_assoc; reflexivity).
  rewrite (normalize_quotes_absent (map restore_char b))
    by (intros (u & v & E); apply Hp; rewrite E;
        exists (map restore_char a ++ [space; space] ++ u), v;
        rewrite <- !app_assoc; reflexivity).
  cbn [app].
  rewrite normalize_line_endings_split by discriminate.
  pose proof (normalize_line_endings_split [] (map restore_char b) space
                ltac:(discriminate) ltac:(discriminate)) as E.
  change (normalize_line_endings []) with (@nil char) in E.
  cbn [app] in E. rewrite E. clear E.
  rewrite !collapse_spaces_squeeze.
  apply (squeeze_app_run _ _ 2).
  - apply normalize_line_endings_last. rewrite last_map.
    revert Ha Ha'. destruct (last a) as [z|]; [|discriminate].
    intros Ha Ha'. cbn [option_map].
    intros [= E]. revert E. apply restore_char_space; congruence.
  - apply normalize_line_endings_head.
    destruct b as [|z b]; [discriminate|]. cbn [map head] in *.
    intros [= E]. revert E. apply restore_char_space; congruence.
Qed.

(** ** Where a second run can differ *)

Lemma leading_spaces_two (s : text) :
  (2 <= leading_spaces s)%nat -> ∃ b, s = space :: space :: b.
Proof.
  destruct s as [|c [|d s]]; cbn [leading_spaces];
    try destruct (N.eqb_spec c space) as [->|]; try lia.
  destruct (N.eqb_spec d space) as [->|]; [|lia].
  intros _. exists s. reflexivity.
Qed.

Lemma squeeze_fixed (s : text) :
  ¬ occurs [space; space; space] s -> squeeze s = s.
Proof.
  induction s as [|c s IH]; intros Hs; [reflexivity|]. cbn [squeeze].
  destruct (N.eqb_spec c space) as [->|Hc]; cbn [andb].
  - destruct (Nat.leb_spec 2 (leading_spaces s)) as [H2|H2].
    + exfalso. apply Hs. destruct (leading_spaces_two _ H2) as [b ->].
      exists [], b. reflexivity.
    + rewrite IH; [reflexivity|]. intros H. apply Hs, occurs_cons, H.
  - rewrite IH; [reflexivity|]. intros H. apply Hs, occurs_cons, H.
Qed.

Lemma normalize_line_endings_fixed (s : text) :
  CR ∉ s -> normalize_line_endings s = s.
Proof.
  intros Hs. unfold normalize_line_endings.
  rewrite (replace_absent [CR; LF]).
  - rewrite replace_char. apply subst_absent. exact Hs.
  - discriminate.
  - intros (a & b & ->). apply Hs.
    rewrite elem_of_app. right. left.
Qed.

(** X7: a second run changes the result of the first only if the first
    result contains the literal of lines 24-25. *)
Lemma restore_twice (x : text) :
  ¬ occurs line24_pattern (restore x) ->
  restore (restore x) = restore x.
Proof.
  intros Hp. rewrite (restore_markerless (restore x)).
  - rewrite normalize_line_endings_fixed by apply restore_no_CR.
    rewrite collapse_spaces_squeeze. apply squeeze_fixed.
    intros (a & b & H). unfold restore in H.
    rewrite collapse_spaces_squeeze in H.
    exact (squeeze_no_run _ _ _ H).
  - apply Forall_forall. intros c Hc. apply restore_no_marker. exact Hc.
  - exact Hp.
Qed.

(** ** The pipeline on given texts *)

(** C1: the pipeline is not idempotent: there is a text on which a
    second run changes the result of the first.  On [unstable_input] the
    first run restores three checkmarks to three spaces and collapses
    them to two, which completes the literal that the call of lines
    24-25 searches; the second run replaces that literal by an
    apostrophe. *)
Theorem restore_not_idempotent :
  ∃ x : text, restore (restore x) ≠ restore x.
Proof.
  exists unstable_input.
  assert (H1 : restore unstable_input = line24_pattern) by (vm_compute; reflexivity).
  assert (H2 : restore line24_pattern = [apostrophe]) by (vm_compute; reflexivity).
  rewrite H1, H2. vm_compute. discriminate.
Qed.

(** C3: on a, three checkmarks, b the checkmark replacement of line 14
    gives a, three spaces, b, and the whole pipeline gives a, two
    spaces, b: the spaces that line 14 writes are collapsed by line 34
    like any others. *)
Theorem three_checkmarks_collapse :
  let input := str "a" ++ [checkmark; checkmark; checkmark] ++ str "b" in
  replace [checkmark] (str " ") input = str "a   b"
  ∧ restore_markers input = str "a   b"
  ∧ restore input = str "a  b".
Proof. vm_compute. repeat split. Qed.

(** C2: the code departs from it at [line24_pattern].  This text is
    plain ASCII, with no marker and no typographic quotation mark;
    line-ending normalization and whitespace collapse leave it as it
    is, yet the pipeline turns it into one apostrophe, because the call
    of lines 24-25 searches exactly this text.  For the texts that do
    not contain it, see [restore_markerless]. *)
Theorem markerless_text_rewritten :
  Forall (fun c => c ∉ markers ++ curly_quotes) line24_pattern
  ∧ collapse_spaces (normalize_line_endings line24_pattern) = line24_pattern
  ∧ restore line24_pattern = [apostrophe]
  ∧ restore line24_pattern
    ≠ collapse_spaces (normalize_line_endings line24_pattern).
Proof.
  split; [|split; [|split]].
  - apply (bool_decide_unpack _). vm_compute. reflexivity.
  - vm_compute. reflexivity.
  - vm_compute. reflexivity.
  - vm_compute. discriminate.
Qed.

(** C4: what holds of it and where the code departs from it.  In step
    5 alone every maximal run of three or more spaces becomes two
    spaces and a run of one or two is left as it is.  But an input with
    a run of exactly two spaces and no marker at all need not keep it:
    [line24_pattern] is such an input, with no space before or after
    its two spaces, and the pipeline returns one apostrophe for it,
    because the call of lines 24-25 searches exactly this text. *)
Theorem two_space_run_rewritten :
  (∀ a b n, last a ≠ Some space -> head b ≠ Some space ->
     collapse_spaces (a ++ replicate n space ++ b)
     = collapse_spaces a
       ++ replicate (if (3 <=? n)%nat then 2 else n)%nat space
       ++ collapse_spaces b)
  ∧ (let a := [44; 32; dquote; apostrophe; dquote; 41] in
     let b := str "# LEFT SINGLE QUOTATION MARK" ++ [LF]
              ++ str "content = content.replace(" in
     line24_pattern = a ++ [space; space] ++ b
     ∧ last a ≠ Some space
     ∧ head b ≠ Some space
     ∧ Forall (fun c => c ∉ line24_pattern) markers
     ∧ restore line24_pattern = [apostrophe]
     ∧ ¬ occurs [space; space] (restore line24_pattern)).
Proof.
  split.
  - intros a b n Ha Hb. rewrite !collapse_spaces_squeeze.
    apply squeeze_app_run; assumption.
  - assert (Hr : restore line24_pattern = [apostrophe])
      by (vm_compute; reflexivity).
    cbv zeta. split; [vm_compute; reflexivity|].
    split; [vm_compute; discriminate|].
    split; [vm_compute; discriminate|].
    split; [apply (bool_decide_unpack _); vm_compute; reflexivity|].
    split; [exact Hr|].
    rewrite Hr. intros (u & v & H).
    destruct u as [|x [|y u]]; discriminate.
Qed.

(** C8: the code departs from it.  A text between a left and a right
    double quotation mark comes out between the same two marks,
    not between ASCII double quotes, because lines 26-27 search the
    ASCII double quote and not the typographic ones; the text between
    them goes through the pipeline on its own.  So left mark, a, right
    mark is returned unchanged. *)
Theorem curly_double_quotes_kept :
  (∀ t, restore ([ldquo] ++ t ++ [rdquo]) = [ldquo] ++ restore t ++ [rdquo])
  ∧ (let input := [ldquo] ++ str "a" ++ [rdquo] in
     restore input = input
     ∧ restore input ≠ [dquote] ++ str "a" ++ [dquote]).
Proof.
  split.
  - intros t.
    change ([ldquo] ++ t ++ [rdquo]) with ([] ++ ldquo :: t ++ [rdquo]).
    rewrite (restore_split [] (t ++ [rdquo]) ldquo) by reflexivity.
    rewrite (restore_split t [] rdquo) by reflexivity.
    reflexivity.
  - vm_compute. split; [reflexivity|discriminate].
Qed.

(** C9: the code departs from it on the quotation marks.  No marker
    and no carriage return is left in any output, but every
    typographic quotation mark of the input is still in the output,
    since no call of lines 24-27 searches it; each of the four, alone,
    comes out as it went in. *)
Theorem curly_quotes_survive :
  (∀ s, Forall (fun c => c ∉ restore s) (CR :: markers))
  ∧ (∀ s, Forall (fun q => q ∈ s -> q ∈ restore s) curly_quotes)
  ∧ Forall (fun q => restore [q] = [q]) curly_quotes.
Proof.
  split; [|split].
  - intros s. apply Forall_cons. split; [apply restore_no_CR|].
    apply Forall_forall. intros x Hx. apply restore_no_marker. exact Hx.
  - intros s. apply Forall_forall. intros q Hq Hs.
    apply list_elem_of_split in Hs. destruct Hs as (a & b & ->).
    rewrite restore_split.
    + rewrite elem_of_app, elem_of_cons. auto.
    + revert Hq. unfold curly_quotes. rewrite !elem_of_cons.
      intros [-> | [-> | [-> | [-> | H]]]]; [..|inversion H]; reflexivity.
  - unfold curly_quotes. repeat apply Forall_cons_2; try apply Forall_nil_2;
      vm_compute; reflexivity.
Qed.

(** ** The script as a whole *)

(** C5: when the source path names no file, the script stops with
    [FileNotFoundError] and leaves the world as it found it: the
    destination is neither created nor changed, and nothing is
    printed. *)
Theorem missing_source_fails (w : world) :
  files w !! broken_path = None ->
  main w = (inl FileNotFoundError, w).
Proof.
  intros H. unfold main, mbind, io_bind, read_file. rewrite H. reflexivity.
Qed.

Lemma missing_source_fails_witness :
  let w := World {[ restored_path := str "kept" ]} ∅ [LF] (fun _ => true) [] in
  files w !! broken_path = None
  ∧ main w = (inl FileNotFoundError, w).
Proof.
  assert (H : files (World {[ restored_path := str "kept" ]} ∅ [LF] (fun _ => true) [])
              !! broken_path = None)
    by (vm_compute; reflexivity).
  split; [exact H|].
  exact (missing_source_fails _ H).
Defined.


(** When the destination cannot be written the script stops there, and
    again nothing has changed. *)
Lemma unwritable_destination_fails (w : world) (raw : text) :
  files w !! broken_path = Some raw ->
  restored_path ∈ readonly w ->
  main w = (inl PermissionError, w).
Proof.
  intros Hr Hw. unfold main, mbind, io_bind, read_file. rewrite Hr.
  unfold write_file. destruct (decide (restored_path ∈ readonly w));
    [reflexivity|contradiction].
Qed.

(** * Further properties of the script *)

(** ** Lengths *)

Section scan_length.
Context (m : matcher) (new : text).
Hypothesis bounded : ∀ u n, m u = Some n -> (n <= length u)%nat.
Hypothesis shorter : ∀ u n, m u = Some (S n) -> (length new <= S n)%nat.

Lemma scan_length (k : nat) (s : text) :
  (length (scan m new k s) <= length s - k)%nat.
Proof.
  revert k. induction s as [|c s IH]; intros k; cbn [scan]; [simpl; lia|].
  destruct k as [|k].
  - destruct (m (c :: s)) as [[|n]|] eqn:E.
    + specialize (IH 0%nat). simpl in *. lia.
    + pose proof (bounded _ _ E) as Hb. pose proof (shorter _ _ E) as Hs.
      specialize (IH n). rewrite length_app. simpl in *. lia.
    + specialize (IH 0%nat). simpl in *. lia.
  - specialize (IH k). simpl. lia.
Qed.
End scan_length.

Lemma replace_length (old new s : text) :
  old ≠ [] -> (length new <= length old)%nat ->
  (length (replace old new s) <= length s)%nat.
Proof.
  intros Hold Hlen. destruct old as [|o old]; [congruence|]. unfold replace.
  pose proof (scan_length (literal (o :: old)) new) as H.
  specialize (H ltac:(intros u n; unfold literal;
                      destruct (startswith (o :: old) u) eqn:E; [|discriminate];
                      intros [= <-]; apply (startswith_length (o :: old)), E)).
  specialize (H ltac:(intros u n; unfold literal;
                      destruct (startswith (o :: old) u); [|discriminate];
                      intros [= Hn]; simpl in *; lia)).
  specialize (H 0%nat s). lia.
Qed.

Lemma collapse_spaces_length (s : text) :
  (length (collapse_spaces s) <= length s)%nat.
Proof.
  unfold collapse_spaces, re_sub_spaces3.
  pose proof (scan_length spaces3 (str "  ")) as H.
  specialize (H ltac:(intros u n; unfold spaces3;
                      destruct (3 <=? leading_spaces u)%nat; [|discriminate];
                      intros [= <-]; apply leading_spaces_le)).
  specialize (H ltac:(intros u n; unfold spaces3;
                      destruct (Nat.leb_spec 3 (leading_spaces u)); [|discriminate];
                      intros [= Hn]; simpl; lia)).
  specialize (H 0%nat s). lia.
Qed.

(** X1: the pipeline never makes a text longer: every rule writes at
    most as many characters as it reads. *)
Theorem restore_never_longer (s : text) :
  (length (restore s) <= length s)%nat.
Proof.
  unfold restore.
  pose proof (collapse_spaces_length
    (normalize_line_endings (normalize_quotes
      (restore_operators (restore_markers s))))) as H5.
  assert (H4 : ∀ t, (length (normalize_line_endings t) <= length t)%nat).
  { intros t. unfold normalize_line_endings.
    rewrite replace_char, length_map.
    apply replace_length; [discriminate|simpl; lia]. }
  assert (H3 : ∀ t, (length (normalize_quotes t) <= length t)%nat).
  { intros t. unfold normalize_quotes. rewrite !replace_same_char.
    apply replace_length; [discriminate|vm_compute; lia]. }
  assert (H12 : length (restore_operators (restore_markers s)) = length s).
  { rewrite restore_char_map. apply length_map. }
  specialize (H4 (normalize_quotes (restore_operators (restore_markers s)))).
  specialize (H3 (restore_operators (restore_markers s))).
  lia.
Qed.

(** ** Characters *)

(** X2: every character of the output is a character of the input or
    one of the eight ASCII characters the rules write: space, X, =, <,
    >, 9, apostrophe, linefeed. *)
Theorem restore_writes_only (s : text) :
  Forall (fun x => x ∈ s ∨ x ∈ written) (restore s).
Proof.
  apply Forall_forall. intros x H. unfold restore in H. unfold written.
  apply collapse_spaces_elem_of in H.
  destruct H as [H | ->]; [|right; rewrite !elem_of_cons; auto 10].
  apply normalize_line_endings_elem_of in H.
  destruct H as [H | ->]; [|right; rewrite !elem_of_cons; auto 10].
  unfold normalize_quotes in H. rewrite !replace_same_char in H.
  apply replace_elem_of in H. destruct H as [H|H].
  - rewrite restore_operators_map, restore_markers_map in H.
    repeat (apply subst_elem_of in H;
            destruct H as [H | ->]; [|right; rewrite !elem_of_cons; auto 10]).
    left. exact H.
  - apply list_elem_of_singleton in H. subst x.
    right. rewrite !elem_of_cons. auto 10.
Qed.

(** ** The steps one by one *)

(** X3: lines 26 and 27 change no text, so that step 3 is the one call
    of lines 24-25. *)
Theorem quote_lines_one_call (s : text) :
  replace [dquote] [dquote] s = s
  ∧ normalize_quotes s = replace line24_pattern [apostrophe] s.
Proof.
  split; [apply replace_same_char|].
  unfold normalize_quotes. rewrite !replace_same_char. reflexivity.
Qed.

Lemma collapse_spaces_twice (s : text) :
  collapse_spaces (collapse_spaces s) = collapse_spaces s.
Proof.
  rewrite !collapse_spaces_squeeze. apply squeeze_fixed.
  intros (a & b & H). exact (squeeze_no_run _ _ _ H).
Qed.

(** X4: steps 1, 2, 4 and 5 are idempotent each, and step 3 is not: on
    [nested_literal] its first run leaves the literal of lines 24-25
    and its second run replaces it. *)
Theorem steps_idempotent :
  (∀ s, restore_markers (restore_markers s) = restore_markers s)
  ∧ (∀ s, restore_operators (restore_operators s) = restore_operators s)
  ∧ (∀ s, normalize_line_endings (normalize_line_endings s)
          = normalize_line_endings s)
  ∧ (∀ s, collapse_spaces (collapse_spaces s) = collapse_spaces s)
  ∧ normalize_quotes (normalize_quotes nested_literal)
    ≠ normalize_quotes nested_literal.
Proof.
  split; [|split; [|split; [|split]]].
  - intros s. rewrite !restore_markers_map.
    rewrite (subst_absent checkmark), (subst_absent cross); [reflexivity|..].
    + apply subst_gone. discriminate.
    + apply subst_keeps_absent; [|discriminate].
      apply subst_gone. discriminate.
  - intros s. rewrite !restore_operators_map.
    rewrite (subst_absent clipboard), (subst_absent magnifier),
      (subst_absent broom), (subst_absent barchart); [reflexivity|..];
      repeat first
        [ apply subst_gone; discriminate
        | apply subst_keeps_absent; [|discriminate] ].
  - intros s. apply normalize_line_endings_fixed, normalize_line_endings_no_CR.
  - exact collapse_spaces_twice.
  - vm_compute. discriminate.
Qed.

Lemma squeeze_sublist (s : text) : squeeze s `sublist_of` s.
Proof.
  induction s as [|c s IH]; cbn [squeeze]; [constructor|].
  destruct ((c =? space) && (2 <=? leading_spaces s)%nat).
  - apply sublist_cons. exact IH.
  - apply sublist_skip. exact IH.
Qed.

Lemma squeeze_filter (s : text) :
  filter (fun c => c ≠ space) (squeeze s) = filter (fun c => c ≠ space) s.
Proof.
  induction s as [|c s IH]; cbn [squeeze]; [reflexivity|].
  destruct (N.eqb_spec c space) as [->|Hc]; cbn [andb].
  - destruct (2 <=? leading_spaces s)%nat.
    + rewrite (filter_cons_False (fun c => c ≠ space) space s) by auto.
      exact IH.
    + rewrite !(filter_cons_False (fun c => c ≠ space) space) by auto.
      exact IH.
  - rewrite !(filter_cons_True (fun c => c ≠ space) c) by assumption.
    f_equal. exact IH.
Qed.

(** X5: line 34 only deletes spaces: its output is the input with some
    characters left out, and the characters other than spaces are all
    kept, in their order. *)
Theorem collapse_spaces_deletes_spaces (s : text) :
  collapse_spaces s `sublist_of` s
  ∧ filter (fun c => c ≠ space) (collapse_spaces s)
    = filter (fun c => c ≠ space) s.
Proof.
  rewrite collapse_spaces_squeeze. split.
  - apply squeeze_sublist.
  - apply squeeze_filter.
Qed.

(** X6: steps 4 and 5 change a text exactly when it has what they
    search: step 4 when it has a carriage return, step 5 when it has
    three spaces in a row. *)
Theorem steps_fixed_points (s : text) :
  (normalize_line_endings s = s ↔ CR ∉ s)
  ∧ (collapse_spaces s = s ↔ ¬ occurs [space; space; space] s).
Proof.
  split; split.
  - intros E. rewrite <- E. apply normalize_line_endings_no_CR.
  - apply normalize_line_endings_fixed.
  - intros E (a & b & H). rewrite collapse_spaces_squeeze in E.
    rewrite <- E in H. exact (squeeze_no_run _ _ _ H).
  - intros H. rewrite collapse_spaces_squeeze. apply squeeze_fixed, H.
Qed.

(** ** Occurrences, computed *)

Lemma startswith_prefix (p b : text) : startswith p (p ++ b) = true.
Proof.
  induction p as [|a p IH]; [reflexivity|].
  cbn [app startswith]. rewrite N.eqb_refl, IH. reflexivity.
Qed.

Lemma occurs_contains (p s : text) :
  occurs p s -> contains p s = true.
Proof.
  intros (a & b & ->). induction a as [|c a IH]; cbn [app].
  - destruct (p ++ b) as [|c t] eqn:E.
    + apply app_eq_nil in E. destruct E as [-> _]. reflexivity.
    + cbn [contains]. rewrite <- E, startswith_prefix. reflexivity.
  - cbn [contains]. rewrite IH. apply orb_true_r.
Qed.

Lemma restore_twice_witness :
  ¬ occurs line24_pattern (restore (str "a =" ++ [checkmark; CR])) ∧
  restore (restore (str "a =" ++ [checkmark; CR]))
  = restore (str "a =" ++ [checkmark; CR]).
Proof.
  assert (H : ¬ occurs line24_pattern (restore (str "a =" ++ [checkmark; CR])))
    by (intros H; apply occurs_contains in H; vm_compute in H; discriminate).
  split; [exact H|].
  exact (restore_twice _ H).
Defined.

Lemma restore_two_spaces_witness :
  let a := str "x =" in
  let b := str "1;" in
  last a ≠ Some space ∧ last a ≠ Some checkmark
  ∧ head b ≠ Some space ∧ head b ≠ Some checkmark
  ∧ ¬ occurs line24_pattern
        (restore_operators (restore_markers (a ++ [space; space] ++ b)))
  ∧ restore (a ++ [space; space] ++ b)
    = restore a ++ [space; space] ++ restore b.
Proof.
  assert (H1 : last (str "x =") ≠ Some space) by (vm_compute; discriminate).
  assert (H2 : last (str "x =") ≠ Some checkmark) by (vm_compute; discriminate).
  assert (H3 : head (str "1;") ≠ Some space) by (vm_compute; discriminate).
  assert (H4 : head (str "1;") ≠ Some checkmark) by (vm_compute; discriminate).
  assert (H5 : ¬ occurs line24_pattern
                 (restore_operators (restore_markers
                    (str "x =" ++ [space; space] ++ str "1;"))))
    by (intros H; apply occurs_contains in H; vm_compute in H; discriminate).
  repeat (split; [assumption|]).
  exact (restore_two_spaces _ _ H1 H2 H3 H4 H5).
Defined.

(** ** Markers in their places *)

Lemma restore_same_chars (s t : text) :
  map restore_char s = map restore_char t -> restore s = restore t.
Proof.
  intros H. unfold restore. rewrite !restore_char_map, H. reflexivity.
Qed.

Lemma restore_like (m r : char) (a b : text) :
  restore_char m = restore_char r ->
  restore (a ++ m :: b) = restore (a ++ r :: b).
Proof.
  intros H. apply restore_same_chars. rewrite !map_app. cbn [map].
  rewrite H. reflexivity.
Qed.

Lemma restore_in_place (m r : char) (a b : text) :
  restore_char m = restore_char r -> inert r = true ->
  restore (a ++ m :: b) = restore a ++ r :: restore b.
Proof.
  intros Hm Hr. rewrite (restore_like m r a b Hm).
  apply restore_split. exact Hr.
Qed.

(** X9: each of the six markers is restored exactly like its
    replacement written in its place: a checkmark like a space, a cross
    like X, and so on for =, <, > and 9. *)
Theorem marker_like_replacement :
  Forall (fun rule => ∀ a b, restore (a ++ rule.1 :: b)
                             = restore (a ++ rule.2 :: b)) char_rules.
Proof.
  unfold char_rules.
  repeat apply Forall_cons_2; try apply Forall_nil_2;
    intros a b; apply restore_like; reflexivity.
Qed.

(** X10: a cross, a magnifier, a broom or a bar chart comes out as X,
    <, > or 9 at its place, whatever stands around it, and the texts on
    its two sides are restored on their own. *)
Theorem markers_in_place :
  Forall (fun rule => ∀ a b, restore (a ++ rule.1 :: b)
                             = restore a ++ rule.2 :: restore b)
         in_place_rules.
Proof.
  unfold in_place_rules.
  repeat apply Forall_cons_2; try apply Forall_nil_2;
    intros a b; apply restore_in_place; reflexivity.
Qed.

(** ** Texts the pipeline leaves alone *)

(** X11: a text with no marker, no carriage return, no three spaces in
    a row and without the literal of lines 24-25 is returned
    unchanged. *)
Theorem restore_clean_text (s : text) :
  Forall (fun c => c ∉ s) (CR :: markers) ->
  ¬ occurs line24_pattern s ->
  ¬ occurs [space; space; space] s ->
  restore s = s.
Proof.
  intros Hc Hp Hs. apply Forall_cons in Hc. destruct Hc as [HCR Hm].
  rewrite restore_markerless by assumption.
  rewrite normalize_line_endings_fixed by assumption.
  rewrite collapse_spaces_squeeze. apply squeeze_fixed. exact Hs.
Qed.

Lemma restore_clean_text_witness :
  let s := str "it('runs', () => { x = 1;  y = 2; });" ++ [LF; ldquo] in
  Forall (fun c => c ∉ s) (CR :: markers)
  ∧ ¬ occurs line24_pattern s
  ∧ ¬ occurs [space; space; space] s
  ∧ restore s = s.
Proof.
  assert (H1 : Forall (fun c => c ∉ str "it('runs', () => { x = 1;  y = 2; });"
                                     ++ [LF; ldquo]) (CR :: markers))
    by (apply (bool_decide_unpack _); vm_compute; reflexivity).
  assert (H2 : ¬ occurs line24_pattern
                 (str "it('runs', () => { x = 1;  y = 2; });" ++ [LF; ldquo]))
    by (intros H; apply occurs_contains in H; vm_compute in H; discriminate).
  assert (H3 : ¬ occurs [space; space; space]
                 (str "it('runs', () => { x = 1;  y = 2; });" ++ [LF; ldquo]))
    by (intros H; apply occurs_contains in H; vm_compute in H; discriminate).
  repeat (split; [assumption|]).
  exact (restore_clean_text _ H1 H2 H3).
Defined.

(** X12: a block of inert characters, that is of characters that are
    no marker, no space, no line break and not in the literal of lines
    24-25, is copied as it is, and the texts on its two sides are
    restored on their own. *)
Theorem restore_inert_block (a b s : text) (x : char) :
  forallb inert (x :: s) = true ->
  restore (a ++ (x :: s) ++ b) = restore a ++ (x :: s) ++ restore b.
Proof.
  revert a x. induction s as [|y s IH]; intros a x H;
    cbn [forallb] in H; apply andb_true_iff in H; destruct H as [Hx Hs].
  - cbn [app]. apply restore_split. exact Hx.
  - cbn [app]. rewrite restore_split by exact Hx.
    specialize (IH [] y Hs). cbn [app] in IH.
    change (restore []) with (@nil char) in IH. cbn [app] in IH.
    rewrite IH. reflexivity.
Qed.

Lemma restore_inert_block_witness :
  forallb inert (str "123") = true
  ∧ restore ([checkmark] ++ str "123" ++ [broom])
    = restore [checkmark] ++ str "123" ++ restore [broom].
Proof.
  assert (H : forallb inert (str "123") = true) by (vm_compute; reflexivity).
  split; [exact H|].
  exact (restore_inert_block [checkmark] [broom] (str "23") 49 H).
Defined.

(** ** Order of the six character rules *)

Lemma marker_rules_commute (r1 r2 : text * text) :
  r1 ∈ marker_table -> r2 ∈ marker_table -> rules_commute r1 r2.
Proof.
  unfold marker_table. rewrite !elem_of_cons.
  intros [-> | [-> | [-> | [-> | [-> | [-> | H1]]]]]]
         [-> | [-> | [-> | [-> | [-> | [-> | H2]]]]]];
    try (inversion H1; fail); try (inversion H2; fail);
    first [ intros s; reflexivity
          | apply replace_char_comm; discriminate ].
Qed.

(** X13: the six character rules of lines 14-21 can be applied in any
    order: every permutation of them gives the result of steps 1 and
    2. *)
Theorem marker_rules_any_order (table : list (text * text)) :
  marker_table ≡ₚ table ->
  ∀ s, apply_table table s = restore_operators (restore_markers s).
Proof.
  intros Hp s. symmetry.
  change (restore_operators (restore_markers s))
    with (apply_table marker_table s).
  apply apply_table_perm; [assumption|apply marker_rules_commute].
Qed.

Lemma marker_rules_any_order_witness :
  let table := [ ([barchart], str "9"); ([cross], str "X");
                 ([broom], str ">"); ([checkmark], str " ");
                 ([magnifier], str "<"); ([clipboard], str "=") ] in
  let s := [cross; 88; checkmark; space; barchart; clipboard; broom] in
  marker_table ≡ₚ table
  ∧ apply_table table s = restore_operators (restore_markers s).
Proof.
  assert (Hp : marker_table ≡ₚ
               [ ([barchart], str "9"); ([cross], str "X");
                 ([broom], str ">"); ([checkmark], str " ");
                 ([magnifier], str "<"); ([clipboard], str "=") ])
    by (apply (bool_decide_unpack _); vm_compute; reflexivity).
  split; [exact Hp|].
  apply (marker_rules_any_order _ Hp).
Defined.

(** ** Runs of the script *)







(** X17: in the script lines 30-31 never change anything: the text
    comes from a file read in text mode, which has already turned every
    carriage return into a linefeed, and steps 1 to 3 write none. *)
Theorem line_endings_settled_on_read (raw : text) :
  (CR ∉ newlines_in raw)
  ∧ restore (newlines_in raw)
    = collapse_spaces (normalize_quotes
        (restore_operators (restore_markers (newlines_in raw)))).
Proof.
  assert (H0 : CR ∉ newlines_in raw)
    by exact (normalize_line_endings_no_CR raw).
  split; [exact H0|].
  unfold restore. rewrite normalize_line_endings_fixed; [reflexivity|].
  intros H. unfold normalize_quotes in H. rewrite !replace_same_char in H.
  apply replace_elem_of in H. destruct H as [H|H].
  - rewrite restore_operators_map, restore_markers_map in H.
    repeat (apply subst_elem_of in H; destruct H as [H|H]; [|discriminate]).
    exact (H0 H).
  - apply list_elem_of_singleton in H. discriminate.
Qed.
